(** * Breakout (RxJS / TypeScript): the simulation core of [src/index.ts]

    The development embeds the pure part of the game: the collision
    tests, the key-to-direction mapping, the clock and paddle streams,
    the state reducer of [createState$], [updateView]'s terminal checks
    and the restart loop of [game$].

    Modelling conventions.
    - A JavaScript [number] is an exact rational ([Qc], with Leibniz
      equality).  The program only adds, subtracts, multiplies, divides
      by the constants 2, 7 and 1000, and compares; rounding, infinities
      and NaN are outside the model.
    - The one place where the source stores a non-number in a number
      field is [deltaTime: null] of the first tick; that field is an
      [option number] and arithmetic reads it through [ToNumber].
    - The canvas [stage] comes from the page, which is not part of the
      sources: its width and height are parameters.
    - An observable is the list of the values it emits, in order. *)

From Stdlib Require Import QArith Qcanon Lqa Sorted.
From stdpp Require Import base decidable numbers list strings.

Local Open Scope Qc_scope.

(** ** Numbers *)

Abbreviation number := Qc.

(** Integer literals of the source. *)
Notation "# z" := (Qc_of_Z z%Z) (at level 1, z at level 0, format "# z") : Qc_scope.

(** [a < b] and [a > b] as the boolean the source computes. *)
Definition lt (a b : number) : bool := bool_decide (a < b).
Definition gt (a b : number) : bool := bool_decide (b < a).

(** [Math.min] and [Math.max] on two arguments. *)
Definition Math_min (a b : number) : number := if lt b a then b else a.
Definition Math_max (a b : number) : number := if lt a b then b else a.

(** ECMAScript [ToNumber] on a value that is [null] or a number:
    [null] converts to [+0]. *)
Definition ToNumber (v : option number) : number :=
  match v with
  | None => 0
  | Some n => n
  end.

(** ** Type declarations (index.ts, lines 10-44) *)

Record Point := mkPoint { x : number; y : number }.

Record Ball := mkBall { position : Point; direction : Point }.

Module Brick.
Record t := mk { x : number; y : number; height : number; width : number }.
End Brick.
Abbreviation Brick := Brick.t.

Record Ticker := mkTicker { time : number; deltaTime : option number }.

Record State := mkState { ball : Ball; bricks : list Brick; score : number }.

Record Collision := mkCollision {
  paddle : bool;
  floor : bool;
  wall : bool;
  ceiling : bool;
  brick : bool
}.

(** The canvas element [stage]: only its size is read. *)
Module Stage.
Record t := mk { width : number; height : number }.
End Stage.
Abbreviation Stage := Stage.t.

(** ** Constants (index.ts, lines 51-65) *)

Definition PADDLE_WIDTH : number := #200.
Definition PADDLE_HEIGHT : number := #20.
Definition PADDLE_SPEED : number := #240.

Definition BALL_RADIUS : number := #10.
Definition BALL_SPEED : number := #60.

Definition BRICK_ROWS : nat := 5.
Definition BRICK_COLUMNS : nat := 7.
Definition BRICK_HEIGHT : number := #20.
Definition BRICK_GAP : number := #3.

Definition ARROW_LEFT : number := - #1.
Definition ARROW_RIGHT : number := #1.

(** ** Collision functions (index.ts, lines 126-138) *)

Definition isHit (stage : Stage) (ball : Ball) (paddle : number) : bool :=
  let x := x (position ball) in
  let y := y (position ball) in
  gt x (paddle - PADDLE_WIDTH / #2)
  && lt x (paddle + PADDLE_WIDTH / #2)
  && gt y (Stage.height stage - PADDLE_HEIGHT - BALL_RADIUS).

Definition isCollision (ball : Ball) (brick : Brick) : bool :=
  gt (x (position ball) + x (direction ball)) (Brick.x brick - Brick.width brick / #2)
  && lt (x (position ball) + x (direction ball)) (Brick.x brick + Brick.width brick / #2)
  && gt (y (position ball) + y (direction ball)) (Brick.y brick - Brick.height brick / #2)
  && lt (y (position ball) + y (direction ball)) (Brick.y brick + Brick.height brick / #2).

(** ** Stream operators

    Only the operators the program uses, on finite prefixes of streams. *)

Section Operators.
Context {A B : Type}.

(** [scan(f, seed)]: emits every accumulated value; the seed itself is
    not emitted. *)
Fixpoint scan (f : B -> A -> B) (seed : B) (source : list A) : list B :=
  match source with
  | [] => []
  | value :: source => let acc := f seed value in acc :: scan f acc source
  end.

(** The accumulator of [scan] after the whole prefix. *)
Definition scan_acc (f : B -> A -> B) (seed : B) (source : list A) : B :=
  foldl f seed source.

(** [withLatestFrom(other)]: [inl a] is an emission of the source,
    [inr b] one of the other stream, in order of arrival.  A source
    value arriving before the other stream has emitted is dropped. *)
Fixpoint withLatestFrom (latest : option B) (arrivals : list (A + B)) : list (A * B) :=
  match arrivals with
  | [] => []
  | inr b :: arrivals => withLatestFrom (Some b) arrivals
  | inl a :: arrivals =>
      match latest with
      | Some b => (a, b) :: withLatestFrom latest arrivals
      | None => withLatestFrom latest arrivals
      end
  end.
End Operators.

(** [scan(f)] without a seed: the first value is emitted as it is and
    becomes the accumulator. *)
Definition scan_unseeded {A : Type} (f : A -> A -> A) (source : list A) : list A :=
  match source with
  | [] => []
  | first :: source => first :: scan f first source
  end.

(** [distinctUntilChanged()] with the default [===] comparison. *)
Fixpoint distinctUntilChanged_from (previous : number) (source : list number) : list number :=
  match source with
  | [] => []
  | value :: source =>
      if bool_decide (value = previous)
      then distinctUntilChanged_from previous source
      else value :: distinctUntilChanged_from value source
  end.

Definition distinctUntilChanged (source : list number) : list number :=
  match source with
  | [] => []
  | first :: source => first :: distinctUntilChanged_from first source
  end.

(** ** Input stream (index.ts, lines 141-150) *)

Inductive EventType := keyup | keydown.

Record KeyboardEvent := mkKeyboardEvent { type : EventType; key : string }.

(** [fromEvent(document, 'keyup')] and [fromEvent(document, 'keydown')],
    on one event of the document. *)
Definition keyUp (event : KeyboardEvent) : list KeyboardEvent :=
  match type event with keyup => [event] | keydown => [] end.

Definition keyDown (event : KeyboardEvent) : list KeyboardEvent :=
  match type event with keydown => [event] | keyup => [] end.

(** What the three merged branches of [direction$] emit for one event. *)
Definition direction_of_event (event : KeyboardEvent) : list number :=
  map (fun _ => ARROW_LEFT)
      (filter (fun event => key event = "ArrowLeft") (keyDown event))
  ++ map (fun _ => ARROW_RIGHT)
      (filter (fun event => key event = "ArrowRight") (keyDown event))
  ++ map (fun _ => #0) (keyUp event).

Definition direction_stream (events : list KeyboardEvent) : list number :=
  concat (map direction_of_event events).

(** The current value of the direction signal: the latest emission, if
    there has been one. *)
Definition direction_signal (events : list KeyboardEvent) : option number :=
  last (direction_stream events).

(** ** Clock stream (index.ts, lines 152-161)

    [clock] lists the successive readings of [Date.now()]. *)
Definition ticker_stream (clock : list number) : list Ticker :=
  scan_unseeded
    (fun previous current =>
       mkTicker (time current) (Some ((time current - time previous) / #1000)))
    (map (fun now => mkTicker now None) clock).

(** ** Paddle position stream (index.ts, lines 163-175) *)

(** The projection given to [withLatestFrom]. *)
Definition paddle_dist (ticker : Ticker) (direction : number) : number :=
  ToNumber (deltaTime ticker) * PADDLE_SPEED * direction.

(** The accumulator given to [scan]. *)
Definition paddle_step (stage : Stage) (position dist : number) : number :=
  let nextPosistion := position + dist in
  Math_max
    (Math_min nextPosistion (Stage.width stage - PADDLE_WIDTH / #2))
    (PADDLE_WIDTH / #2).

Definition paddle_seed (stage : Stage) : number := Stage.width stage / #2.

(** [arrivals] interleaves the ticks ([inl]) with the emissions of
    [direction$] ([inr]). *)
Definition createPaddle (stage : Stage) (arrivals : list (Ticker + number)) : list number :=
  distinctUntilChanged
    (scan (paddle_step stage) (paddle_seed stage)
       (map (fun '(ticker, direction) => paddle_dist ticker direction)
          (withLatestFrom None arrivals))).

(** ** Bricks and the initial state (index.ts, lines 178-208) *)

Definition of_nat (n : nat) : number := Qc_of_Z (Z.of_nat n).

Definition brick_width (stage : Stage) : number :=
  (Stage.width stage - BRICK_GAP - BRICK_GAP * of_nat BRICK_COLUMNS) / of_nat BRICK_COLUMNS.

(** The object pushed for row [i] and column [j]. *)
Definition brick_at (stage : Stage) (i j : nat) : Brick :=
  let width := brick_width stage in
  Brick.mk
    (of_nat j * (width + BRICK_GAP) + width / #2 + BRICK_GAP)
    (of_nat i * (BRICK_HEIGHT + BRICK_GAP) + BRICK_HEIGHT / #2 + BRICK_GAP + #20)
    BRICK_HEIGHT
    width.

(** The two nested [for] loops, pushing on [bricks]. *)
Definition createBricks (stage : Stage) : list Brick :=
  foldl
    (fun bricks i =>
       foldl (fun bricks j => bricks ++ [brick_at stage i j]) bricks (seq 0 BRICK_COLUMNS))
    [] (seq 0 BRICK_ROWS).

Definition initialState (stage : Stage) : State :=
  mkState
    (mkBall
       (mkPoint (Stage.width stage / #2) (Stage.height stage / #2))
       (mkPoint #2 #2))
    (createBricks stage)
    #0.

(** ** Game state machine (index.ts, lines 210-262)

    The source updates the ball object of the previous state in place
    and returns it in the next state; here each assignment gives a new
    value and later steps read the updated one, as they do in the
    source. *)

(** The [bricks.forEach] loop: the accumulator is the triple of
    [remainingBricks], [score] and [collision.brick]. *)
Definition brick_pass (ball : Ball) (acc : list Brick * number * bool) (brick : Brick)
  : list Brick * number * bool :=
  let '(remainingBricks, score, collision_brick) := acc in
  if negb (isCollision ball brick)
  then (remainingBricks ++ [brick], score, collision_brick)
  else (remainingBricks, score + #10, true).

(** The ball after the two position assignments of lines 224-225. *)
Definition move (ball : Ball) (ticker : Ticker) : Ball :=
  mkBall
    (mkPoint
       (x (position ball) + x (direction ball) * ToNumber (deltaTime ticker) * BALL_SPEED)
       (y (position ball) + y (direction ball) * ToNumber (deltaTime ticker) * BALL_SPEED))
    (direction ball).

(** The body of the reducer, returning the scratch [collision] record
    next to the state it returns. *)
Definition reducer_collision (stage : Stage) (state : State) (ticker : Ticker) (paddle : number)
  : State * Collision :=
  (* update ball position *)
  let ball := move (ball state) ticker in
  (* brick collision *)
  let '(remainingBricks, score, collision_brick) :=
    foldl (brick_pass ball) ([], score state, false) (bricks state) in
  (* paddle collision *)
  let collision_paddle := isHit stage ball paddle in
  (* wall collision *)
  let collision_wall :=
    lt (x (position ball)) BALL_RADIUS
    || gt (x (position ball)) (Stage.width stage - BALL_RADIUS) in
  let direction_x :=
    if collision_wall then - x (direction ball) else x (direction ball) in
  (* ceiling collision *)
  let collision_ceiling := lt (y (position ball)) BALL_RADIUS in
  (* bounce y *)
  let direction_y :=
    if collision_brick || collision_paddle || collision_ceiling
    then - y (direction ball) else y (direction ball) in
  (mkState (mkBall (position ball) (mkPoint direction_x direction_y)) remainingBricks score,
   mkCollision collision_paddle false collision_wall collision_ceiling collision_brick).

Definition reducer (stage : Stage) (state : State) (input : Ticker * number) : State :=
  fst (reducer_collision stage state (fst input) (snd input)).

(** [arrivals] interleaves the ticks ([inl]) with the emissions of
    [paddle$] ([inr]). *)
Definition createState (stage : Stage) (arrivals : list (Ticker + number)) : list State :=
  scan (reducer stage) (initialState stage) (withLatestFrom None arrivals).

(** The state of a session after the inputs [inputs] have been reduced. *)
Definition session_state (stage : Stage) (inputs : list (Ticker * number)) : State :=
  scan_acc (reducer stage) (initialState stage) inputs.

(** ** View and session controller (index.ts, lines 264-302)

    A session subscribes to the clock three times (for the paddle, for
    the state and for the frames); the subscriptions tick together, so
    a frame is one event carrying the tick and the paddle position the
    reducer and [updateView] receive. *)

(** The calls [updateView] and the subscription of [game$] make on their
    collaborators: the drawing functions and [restart$.error]. *)
Inductive Effect :=
  | clearRect
  | drawPaddle (paddle : number)
  | drawBall (ball : Ball)
  | drawBricks (bricks : list Brick)
  | drawScore (score : number)
  | drawIntro
  | drawGameOver (message : string)
  | restart_error (err : string).

Global Instance Point_eq_dec : EqDecision Point.
Proof. solve_decision. Defined.
Global Instance Ball_eq_dec : EqDecision Ball.
Proof. solve_decision. Defined.
Global Instance Brick_eq_dec : EqDecision Brick.
Proof. solve_decision. Defined.
Global Instance Effect_eq_dec : EqDecision Effect.
Proof. solve_decision. Defined.

Definition updateView (stage : Stage) (frame : Ticker * number * State) : list Effect :=
  let '(ticker, paddle, state) := frame in
  [clearRect; drawPaddle paddle; drawBall (ball state);
   drawBricks (bricks state); drawScore (score state)]
  ++ (if gt (y (position (ball state))) (Stage.height stage - BALL_RADIUS)
      then [drawGameOver "GAME OVER"; restart_error "game over"]
      else [])
  ++ (if bool_decide (length (bricks state) = 0%nat)
      then [drawGameOver "Congradulations!"; restart_error "cong"]
      else []).

Inductive Outcome := Lost | Won.

(** The two ways a session ends, told apart by the value given to
    [restart$.error]. *)
Definition signal (outcome : Outcome) : Effect :=
  match outcome with
  | Lost => restart_error "game over"
  | Won => restart_error "cong"
  end.

Definition signalled (outcome : Outcome) (effects : list Effect) : bool :=
  bool_decide (signal outcome ∈ effects).

(** The first error given to [restart$] reaches the subscriber of
    [game$]; the subject has no observer left for a second one. *)
Fixpoint first_error (effects : list Effect) : option string :=
  match effects with
  | [] => None
  | restart_error err :: _ => Some err
  | _ :: effects => first_error effects
  end.

(** A subscription of [game$] is either running, holding the accumulator
    of its [createState$], or has errored and waits for the delay of
    [retryWhen] to resubscribe. *)
Inductive Controller :=
  | Playing (state : State)
  | Terminal (err : string).

Definition is_terminal (controller : Controller) : bool :=
  match controller with
  | Terminal _ => true
  | Playing _ => false
  end.

Inductive ControllerEvent :=
  | Frame (ticker : Ticker) (paddle : number)
  | DelayElapsed.

(** Subscribing to [game$]: the intro is drawn and the streams are
    created, [createState$] with a fresh [initialState()]. *)
Definition subscribe (stage : Stage) : Controller * list Effect :=
  (Playing (initialState stage), [drawIntro]).

(** One frame for which [paddle$] has a value: the reducer runs, the
    frame is rendered and the terminal checks follow. *)
Definition step (stage : Stage) (controller : Controller) (event : ControllerEvent)
  : Controller * list Effect :=
  match controller, event with
  | Playing state, Frame ticker paddle =>
      let state := reducer stage state (ticker, paddle) in
      let effects := updateView stage (ticker, paddle, state) in
      match first_error effects with
      | Some err => (Terminal err, effects)
      | None => (Playing state, effects)
      end
  | Playing state, DelayElapsed => (Playing state, [])
  | Terminal err, Frame _ _ => (Terminal err, [])
  | Terminal err, DelayElapsed => subscribe stage
  end.

Definition run (stage : Stage) (events : list ControllerEvent) : Controller :=
  foldl (fun controller event => fst (step stage controller event))
    (fst (subscribe stage)) events.

(** ** Drawing functions (index.ts, lines 75-102)

    A drawing function is the list of the calls it makes on the 2D
    context of the canvas, in order; [context.canvas] is [stage]. *)
Module Canvas.
Inductive Call :=
  | beginPath
  | rect (x y w h : number)
  | fill
  | closePath.

Definition drawPaddle (stage : Stage) (paddle : number) : list Call :=
  [beginPath;
   rect (paddle - PADDLE_WIDTH / #2) (Stage.height stage - PADDLE_HEIGHT)
     PADDLE_WIDTH PADDLE_HEIGHT;
   fill;
   closePath].

Definition drawBrick (brick : Brick) : list Call :=
  [beginPath;
   rect (Brick.x brick - Brick.width brick / #2) (Brick.y brick - Brick.height brick / #2)
     (Brick.width brick) (Brick.height brick);
   fill;
   closePath].

(** [bricks.forEach(drawBrick)] after one [beginPath]. *)
Definition drawBricks (bricks : list Brick) : list Call :=
  beginPath :: foldl (fun calls brick => calls ++ drawBrick brick) [] bricks.
End Canvas.

(** ** Vocabulary of the properties *)

(** The bricks a ball leaves in place and the ones it destroys, by the
    test [isCollision]. *)
Definition kept (ball : Ball) (bricks : list Brick) : list Brick :=
  filter (fun brick => isCollision ball brick = false) bricks.

Definition destroyed (ball : Ball) (bricks : list Brick) : list Brick :=
  filter (fun brick => isCollision ball brick = true) bricks.

(** The clamping interval of the paddle. *)
Definition paddle_in_range (stage : Stage) (position : number) : Prop :=
  PADDLE_WIDTH / #2 <= position /\ position <= Stage.width stage - PADDLE_WIDTH / #2.


(** A point between the sides of the rectangle a [rect] call paints and
    lower than one ball radius above its top. *)
Definition reaches (px py : number) (call : Canvas.Call) : Prop :=
  match call with
  | Canvas.rect x y w h => (x < px /\ px < x + w) /\ y - BALL_RADIUS < py
  | _ => False
  end.

(** ** Sample inputs *)

Definition sample_stage : Stage := Stage.mk #480 #320.

(** A ball below the lowest row of bricks, moving up and to the right. *)
Definition ball_below_brick : Ball := mkBall (mkPoint #40 #142) (mkPoint #2 (- #2)).

Definition state_below_brick : State :=
  mkState ball_below_brick (createBricks sample_stage) #0.

(** A tick 50 ms after the previous one. *)
Definition tick_50ms : Ticker := mkTicker #1050 (Some (#50 / #1000)).

(** A ball in the band of the left wall, moving left, and a tick with a
    zero delta. *)
Definition state_at_wall : State :=
  mkState (mkBall (mkPoint #5 #160) (mkPoint (- #2) #2)) (createBricks sample_stage) #0.

Definition tick_zero : Ticker := mkTicker #1050 (Some #0).

(** A ball whose centre is 5 above the floor, away from the paddle. *)
Definition state_near_floor : State :=
  mkState (mkBall (mkPoint #400 #315) (mkPoint #2 #2)) (createBricks sample_stage) #0.

(** A ball over the paddle whose centre is 5 above the floor, 15 below
    the top edge of the paddle. *)
Definition ball_beside_paddle : Ball := mkBall (mkPoint #240 #315) (mkPoint #2 #2).

(** A stage just wide enough for the gaps between the bricks. *)
Definition narrow_stage : Stage := Stage.mk #24 #320.

(** One-second frames with the paddle in the middle: the ball leaves
    through the floor on the second. *)
Definition losing_frames : list ControllerEvent :=
  replicate 3 (Frame (mkTicker #0 (Some #1)) #240).

(** * Properties *)

(** ** Arithmetic on [number] *)

Lemma Qc_eq_Qeq (a b : Qc) : a = b -> (a == b)%Q.
Proof. intros ->. reflexivity. Qed.

Ltac qc_unfold :=
  repeat match goal with
  | H : @eq Qc _ _ |- _ => apply Qc_eq_Qeq in H
  end;
  unfold Qcdiv, Qcminus, Qclt, Qcle in *;
  repeat (unfold Qcinv, Qcmult, Qcplus, Qcopp, Q2Qc in *;
          cbn [this] in *; rewrite ?Qred_correct in * );
  unfold Qc_of_Z, inject_Z in *; cbn [this] in *;
  repeat match goal with
  | |- context [Qinv (Qmake ?n ?d)] =>
      let v := eval cbv in (Qinv (Qmake n d)) in
      change (Qinv (Qmake n d)) with v
  | H : context [Qinv (Qmake ?n ?d)] |- _ =>
      let v := eval cbv in (Qinv (Qmake n d)) in
      change (Qinv (Qmake n d)) with v in H
  end.

Ltac qc_lra := try apply Qc_is_canon; qc_unfold; lra.

Lemma lt_true (a b : number) : lt a b = true <-> a < b.
Proof. unfold lt. apply bool_decide_eq_true. Qed.

Lemma gt_true (a b : number) : gt a b = true <-> b < a.
Proof. unfold gt. apply bool_decide_eq_true. Qed.

Lemma of_nat_S (n : nat) : of_nat (S n) = of_nat n + 1.
Proof.
  unfold of_nat. rewrite Nat2Z.inj_succ, <- Z.add_1_r, Z2Qc_inj_add.
  by rewrite Z2Qc_inj_1.
Qed.

Lemma of_nat_nonneg (n : nat) : 0 <= of_nat n.
Proof.
  unfold of_nat. rewrite <- Z2Qc_inj_0.
  apply (proj1 (Z2Qc_inj_le 0 (Z.of_nat n))). lia.
Qed.

Lemma ten_times_nonneg (n : nat) : 0 <= #10 * of_nat n.
Proof.
  apply Qcmult_nonneg_nonneg; [|apply of_nat_nonneg].
  rewrite <- Z2Qc_inj_0. apply (proj1 (Z2Qc_inj_le 0 10)). lia.
Qed.

(** ** The brick loop *)

Section BrickLoop.
Variable ball : Ball.

Lemma kept_cons brick bricks :
  kept ball (brick :: bricks) =
  if isCollision ball brick then kept ball bricks else brick :: kept ball bricks.
Proof.
  unfold kept. rewrite filter_cons.
  destruct (isCollision ball brick); by case_decide.
Qed.

Lemma destroyed_cons brick bricks :
  destroyed ball (brick :: bricks) =
  if isCollision ball brick then brick :: destroyed ball bricks else destroyed ball bricks.
Proof.
  unfold destroyed. rewrite filter_cons.
  destruct (isCollision ball brick); by case_decide.
Qed.

Lemma brick_pass_foldl bricks remaining score flag :
  foldl (brick_pass ball) (remaining, score, flag) bricks =
  (remaining ++ kept ball bricks,
   score + #10 * of_nat (length (destroyed ball bricks)),
   flag || existsb (isCollision ball) bricks).
Proof.
  revert remaining score flag.
  induction bricks as [|brick bricks IH]; intros remaining score flag.
  - cbn. rewrite app_nil_r, orb_false_r. f_equal. f_equal.
    change (of_nat 0) with #0. rewrite Z2Qc_inj_0. ring.
  - cbn [foldl brick_pass existsb]. rewrite kept_cons, destroyed_cons.
    destruct (isCollision ball brick); cbn [negb]; rewrite IH.
    + cbn [length]. rewrite of_nat_S, orb_true_r. f_equal. f_equal. ring.
    + rewrite <- app_assoc. reflexivity.
Qed.

Lemma kept_sublist bricks : kept ball bricks `sublist_of` bricks.
Proof. apply sublist_filter. Qed.

Lemma kept_destroyed_length bricks :
  (length (kept ball bricks) + length (destroyed ball bricks) = length bricks)%nat.
Proof.
  induction bricks as [|brick bricks IH]; [done|].
  rewrite kept_cons, destroyed_cons.
  destruct (isCollision ball brick); cbn [length]; lia.
Qed.
End BrickLoop.

(** The reducer in closed form. *)
Lemma reducer_collision_eq stage state ticker paddle :
  let ball' := move (ball state) ticker in
  let collision_brick := existsb (isCollision ball') (bricks state) in
  let collision_paddle := isHit stage ball' paddle in
  let collision_wall :=
    lt (x (position ball')) BALL_RADIUS
    || gt (x (position ball')) (Stage.width stage - BALL_RADIUS) in
  let collision_ceiling := lt (y (position ball')) BALL_RADIUS in
  reducer_collision stage state ticker paddle =
  (mkState
     (mkBall (position ball')
        (mkPoint
           (if collision_wall then - x (direction ball') else x (direction ball'))
           (if collision_brick || collision_paddle || collision_ceiling
            then - y (direction ball') else y (direction ball'))))
     (kept ball' (bricks state))
     (score state + #10 * of_nat (length (destroyed ball' (bricks state)))),
   mkCollision collision_paddle false collision_wall collision_ceiling collision_brick).
Proof.
  intros. unfold reducer_collision. rewrite brick_pass_foldl. reflexivity.
Qed.

Lemma reducer_eq stage state ticker paddle :
  reducer stage state (ticker, paddle) = fst (reducer_collision stage state ticker paddle).
Proof. reflexivity. Qed.

Lemma reducer_bricks stage state input :
  bricks (reducer stage state input) = kept (move (ball state) (fst input)) (bricks state).
Proof. unfold reducer. by rewrite reducer_collision_eq. Qed.

Lemma reducer_score stage state input :
  score (reducer stage state input) =
  score state + #10 * of_nat (length (destroyed (move (ball state) (fst input)) (bricks state))).
Proof. unfold reducer. by rewrite reducer_collision_eq. Qed.

Lemma reducer_position stage state input :
  position (ball (reducer stage state input)) = position (move (ball state) (fst input)).
Proof. unfold reducer. by rewrite reducer_collision_eq. Qed.

Lemma session_state_snoc stage inputs input :
  session_state stage (inputs ++ [input]) = reducer stage (session_state stage inputs) input.
Proof. unfold session_state, scan_acc. by rewrite foldl_app. Qed.

(** Every value [scan] emits is the accumulator after a prefix of the
    source; so every state [createState$] emits is a [session_state]. *)
Lemma scan_emits {A B} (f : B -> A -> B) seed source acc :
  acc ∈ scan f seed source ->
  exists n, (0 < n)%nat /\ acc = scan_acc f seed (take n source).
Proof.
  revert seed. induction source as [|value source IH]; intros seed Hin; cbn in Hin.
  - by apply elem_of_nil in Hin.
  - apply elem_of_cons in Hin as [->|Hin].
    + exists 1%nat. split; [lia|]. by destruct source.
    + destruct (IH _ Hin) as (n & Hn & ->). exists (S n). split; [lia|]. reflexivity.
Qed.

Lemma createState_emits stage arrivals state :
  state ∈ createState stage arrivals ->
  exists n, (0 < n)%nat
    /\ state = session_state stage (take n (withLatestFrom None arrivals)).
Proof. apply scan_emits. Qed.

(** ** Bricks and score along a tick *)

(** C1 (as amended): on every tick the reducer first moves the ball
    and then tests each brick, in the order of the collection, with
    [isCollision] on the moved ball, that is at the post-integration
    position plus one unscaled direction step.  The next collection
    keeps exactly the bricks whose test is false, the score grows by 10
    for each brick whose test is true, and the brick flag of the
    collision record is set exactly when some test is true. *)
Theorem bricks_tested_on_moved_ball stage state ticker paddle :
  let ball' := move (ball state) ticker in
  let result := reducer_collision stage state ticker paddle in
  position ball' =
    mkPoint
      (x (position (ball state))
       + x (direction (ball state)) * ToNumber (deltaTime ticker) * BALL_SPEED)
      (y (position (ball state))
       + y (direction (ball state)) * ToNumber (deltaTime ticker) * BALL_SPEED)
  /\ direction ball' = direction (ball state)
  /\ bricks (fst result) =
       filter (fun brick => isCollision ball' brick = false) (bricks state)
  /\ score (fst result) =
       score state
       + #10 * of_nat (length (filter (fun brick => isCollision ball' brick = true)
                                 (bricks state)))
  /\ brick (snd result) = existsb (isCollision ball') (bricks state).
Proof.
  intros ball' result. subst result. rewrite reducer_collision_eq. by repeat split.
Qed.

(** C1 (as stated) fails: with the ball of [state_below_brick] and a
    50 ms tick, no brick passes [isCollision] at the pre-integration
    position, yet the reducer removes a brick and adds 10 to the
    score. *)
Lemma bricks_not_tested_before_motion :
  let state' := reducer sample_stage state_below_brick (tick_50ms, #240) in
  existsb (isCollision (ball state_below_brick)) (bricks state_below_brick) = false
  /\ length (bricks state_below_brick) = 35%nat
  /\ length (bricks state') = 34%nat
  /\ score state_below_brick = #0
  /\ score state' = #10.
Proof.
  cbv zeta. repeat split; try (vm_compute; reflexivity).
  apply Qc_is_canon. vm_compute. reflexivity.
Qed.

(** C4: from the initial state, whatever the inputs, the score is never
    negative, never decreases on a tick, and grows on a tick by exactly
    10 times the number of bricks the tick removes. *)
Theorem score_counts_removed_bricks stage inputs input :
  let before := session_state stage inputs in
  let after := session_state stage (inputs ++ [input]) in
  0 <= score before
  /\ score before <= score after
  /\ score after =
     score before + #10 * of_nat (length (bricks before) - length (bricks after)).
Proof.
  cbv zeta. rewrite session_state_snoc.
  assert (Hstep : forall state,
    score (reducer stage state input) =
    score state + #10 * of_nat (length (bricks state)
                                - length (bricks (reducer stage state input)))).
  { intros state. rewrite reducer_score, reducer_bricks. do 3 f_equal.
    pose proof (kept_destroyed_length (move (ball state) (fst input)) (bricks state)).
    lia. }
  assert (Hmono : forall state, score state <= score (reducer stage state input)).
  { intros state. rewrite reducer_score.
    pose proof (ten_times_nonneg
      (length (destroyed (move (ball state) (fst input)) (bricks state)))) as Hn.
    rewrite <- (Qcplus_0_r (score state)) at 1. by apply Qcplus_le_mono_l. }
  split; [|split; [apply Hmono | apply Hstep]].
  induction inputs as [|input' inputs IH] using rev_ind.
  - cbn. rewrite <- Z2Qc_inj_0. apply Qcle_refl.
  - rewrite session_state_snoc, reducer_score.
    apply Qcplus_nonneg_nonneg; [apply IH | apply ten_times_nonneg].
Qed.

(** C5: on every tick the bricks of the next state are a subsequence of
    the bricks of the previous one, so their number does not grow; in a
    session the bricks at a later tick are a subsequence of the bricks
    at any earlier tick, and a brick absent at some tick is absent at
    every later tick. *)
Theorem bricks_only_shrink stage state input inputs later :
  bricks (reducer stage state input) `sublist_of` bricks state
  /\ (length (bricks (reducer stage state input)) <= length (bricks state))%nat
  /\ bricks (session_state stage (inputs ++ later))
       `sublist_of` bricks (session_state stage inputs)
  /\ (forall brick,
        brick ∉ bricks (session_state stage inputs) ->
        brick ∉ bricks (session_state stage (inputs ++ later))).
Proof.
  assert (Hstep : forall state input,
    bricks (reducer stage state input) `sublist_of` bricks state).
  { intros state0 input0. rewrite reducer_bricks. apply kept_sublist. }
  assert (Hrun : bricks (session_state stage (inputs ++ later))
                   `sublist_of` bricks (session_state stage inputs)).
  { induction later as [|input' later IH] using rev_ind.
    - by rewrite app_nil_r.
    - rewrite app_assoc, session_state_snoc. etrans; [apply Hstep | apply IH]. }
  split; [apply Hstep|]. split; [apply sublist_length, Hstep|].
  split; [apply Hrun|].
  intros brick Hnot Hin. apply Hnot. by eapply sublist_subseteq.
Qed.

(** ** A tick with a zero delta *)

Lemma move_zero ball ticker : ToNumber (deltaTime ticker) = 0 -> move ball ticker = ball.
Proof.
  intros Hzero. destruct ball as [[px py] dir]. unfold move. cbn. rewrite Hzero.
  do 2 f_equal; ring.
Qed.

(** C2 (as amended): on a tick whose [deltaTime] is 0 the ball keeps
    its position; the bricks and the score change only by the removal
    of the bricks the ball collides with; the direction of the ball is
    still subject to the bounces: its x component is negated in the
    band of a side wall, its y component is negated on a brick, paddle
    or ceiling collision. *)
Theorem zero_delta_tick stage state ticker paddle :
  deltaTime ticker = Some #0 ->
  let state' := reducer stage state (ticker, paddle) in
  let px := x (position (ball state)) in
  let py := y (position (ball state)) in
  position (ball state') = position (ball state)
  /\ bricks state' = kept (ball state) (bricks state)
  /\ score state' =
       score state + #10 * of_nat (length (destroyed (ball state) (bricks state)))
  /\ x (direction (ball state')) =
       (if lt px BALL_RADIUS || gt px (Stage.width stage - BALL_RADIUS)
        then - x (direction (ball state)) else x (direction (ball state)))
  /\ y (direction (ball state')) =
       (if existsb (isCollision (ball state)) (bricks state)
           || isHit stage (ball state) paddle
           || lt py BALL_RADIUS
        then - y (direction (ball state)) else y (direction (ball state))).
Proof.
  intros Hdelta state' px py. subst state' px py.
  rewrite reducer_eq, reducer_collision_eq. cbn [fst snd].
  rewrite move_zero by (rewrite Hdelta; apply Z2Qc_inj_0).
  by repeat split.
Qed.

Lemma zero_delta_tick_witness :
  deltaTime tick_zero = Some #0
  /\ position (ball (reducer sample_stage state_at_wall (tick_zero, #240)))
     = position (ball state_at_wall).
Proof.
  split; [reflexivity|].
  apply (zero_delta_tick sample_stage state_at_wall tick_zero #240). reflexivity.
Defined.

(** C2 (as stated) fails: in the band of the left wall a tick with a
    zero delta removes no brick and leaves the score alone, and still
    changes the state: the direction of the ball is reversed. *)
Lemma zero_delta_reverses_direction :
  let state' := reducer sample_stage state_at_wall (tick_zero, #240) in
  deltaTime tick_zero = Some #0
  /\ length (bricks state') = length (bricks state_at_wall)
  /\ score state' = score state_at_wall
  /\ x (direction (ball state_at_wall)) = - #2
  /\ x (direction (ball state')) = #2
  /\ ball state' <> ball state_at_wall.
Proof.
  cbv zeta. repeat split; try (vm_compute; reflexivity);
    try (apply Qc_is_canon; vm_compute; reflexivity).
  intros Heq. apply (f_equal (fun ball => x (direction ball))) in Heq.
  apply Qc_eq_Qeq in Heq. vm_compute in Heq. discriminate.
Qed.

(** ** Terminal checks *)

Lemma signalled_updateView stage ticker paddle state outcome :
  signalled outcome (updateView stage (ticker, paddle, state)) =
  match outcome with
  | Lost => gt (y (position (ball state))) (Stage.height stage - BALL_RADIUS)
  | Won => bool_decide (length (bricks state) = 0%nat)
  end.
Proof.
  unfold signalled, updateView.
  destruct (gt _ _), (bool_decide (length _ = _)), outcome; reflexivity.
Qed.

Lemma first_error_updateView stage ticker paddle state :
  first_error (updateView stage (ticker, paddle, state)) =
  if gt (y (position (ball state))) (Stage.height stage - BALL_RADIUS)
  then Some "game over"
  else if bool_decide (length (bricks state) = 0%nat) then Some "cong" else None.
Proof.
  unfold updateView. destruct (gt _ _), (bool_decide (length _ = _)); reflexivity.
Qed.

(** C3 (as amended): [updateView] first renders the frame and then
    checks the terminal conditions.  It signals the loss exactly when
    the y coordinate of the ball is greater than the stage height minus
    one ball radius, and the win exactly when no brick is left; the
    session leaves [Playing] for [Terminal] on a frame exactly when one
    of the two is signalled. *)
Theorem terminal_checks stage previous ticker paddle state :
  let effects := updateView stage (ticker, paddle, state) in
  let state' := reducer stage previous (ticker, paddle) in
  take 5 effects =
    [clearRect; drawPaddle paddle; drawBall (ball state);
     drawBricks (bricks state); drawScore (score state)]
  /\ (signalled Lost effects = true <->
      Stage.height stage - BALL_RADIUS < y (position (ball state)))
  /\ (signalled Won effects = true <-> bricks state = [])
  /\ is_terminal (fst (step stage (Playing previous) (Frame ticker paddle))) =
     signalled Lost (updateView stage (ticker, paddle, state'))
     || signalled Won (updateView stage (ticker, paddle, state')).
Proof.
  cbv zeta. rewrite !signalled_updateView. split; [reflexivity|].
  split; [apply gt_true|]. split.
  - rewrite bool_decide_eq_true. apply length_zero_iff_nil.
  - cbn [step]. rewrite first_error_updateView.
    destruct (gt _ _), (bool_decide (length _ = _)); reflexivity.
Qed.

(** C3 (as stated) fails: a ball whose centre is still 5 above the
    floor, so not beyond the stage height by more than a radius, is
    already signalled as lost. *)
Lemma lost_before_floor_exceeded :
  let ball_y := y (position (ball state_near_floor)) in
  signalled Lost (updateView sample_stage (tick_zero, #240, state_near_floor)) = true
  /\ ball_y < Stage.height sample_stage
  /\ ~ (Stage.height sample_stage + BALL_RADIUS < ball_y).
Proof.
  cbv zeta. split; [|split].
  - rewrite signalled_updateView. vm_compute. reflexivity.
  - vm_compute. reflexivity.
  - vm_compute. discriminate.
Qed.

(** ** Paddle *)

Section Paddle.
Variable stage : Stage.
Hypothesis stage_fits_paddle : PADDLE_WIDTH <= Stage.width stage.

Lemma paddle_step_in_range position dist :
  paddle_in_range stage (paddle_step stage position dist).
Proof.
  unfold paddle_in_range, paddle_step, Math_max, Math_min, lt, PADDLE_WIDTH in *.
  repeat case_bool_decide; split; qc_lra.
Qed.

Lemma paddle_seed_in_range : paddle_in_range stage (paddle_seed stage).
Proof. unfold paddle_in_range, paddle_seed, PADDLE_WIDTH in *. split; qc_lra. Qed.

Lemma paddle_scan_in_range position dists :
  Forall (paddle_in_range stage) (scan (paddle_step stage) position dists).
Proof.
  revert position. induction dists as [|dist dists IH]; intros position; cbn.
  - constructor.
  - constructor; [apply paddle_step_in_range | apply IH].
Qed.
End Paddle.

Lemma distinctUntilChanged_from_subseteq previous source :
  distinctUntilChanged_from previous source ⊆ source.
Proof.
  revert previous. induction source as [|value source IH]; intros previous; cbn.
  - done.
  - case_bool_decide.
    + intros p Hp. right. by eapply IH.
    + intros p Hp. apply elem_of_cons in Hp as [->|Hp]; [left|right]. by eapply IH.
Qed.

Lemma distinctUntilChanged_subseteq source : distinctUntilChanged source ⊆ source.
Proof.
  destruct source as [|first source]; [done|]. cbn.
  intros p Hp. apply elem_of_cons in Hp as [->|Hp]; [left|right].
  by eapply distinctUntilChanged_from_subseteq.
Qed.

(** C6: on a stage at least as wide as the paddle, whatever the ticks
    and the directions, the seed of the paddle position and every
    position [createPaddle$] emits lie in
    [PADDLE_WIDTH / 2, stage.width - PADDLE_WIDTH / 2]. *)
Theorem paddle_stays_in_range stage (arrivals : list (Ticker + number)) :
  PADDLE_WIDTH <= Stage.width stage ->
  Forall
    (fun position =>
       PADDLE_WIDTH / #2 <= position /\ position <= Stage.width stage - PADDLE_WIDTH / #2)
    (paddle_seed stage :: createPaddle stage arrivals).
Proof.
  intros Hfits. constructor; [by apply paddle_seed_in_range|].
  unfold createPaddle. eapply Forall_forall. intros p Hp.
  apply distinctUntilChanged_subseteq in Hp.
  pose proof (paddle_scan_in_range stage Hfits (paddle_seed stage)
    (map (fun '(ticker, direction) => paddle_dist ticker direction)
       (withLatestFrom None arrivals))) as Hall.
  rewrite Forall_forall in Hall. by apply Hall.
Qed.

Lemma paddle_stays_in_range_witness :
  PADDLE_WIDTH <= Stage.width sample_stage
  /\ Forall
       (fun position =>
          PADDLE_WIDTH / #2 <= position
          /\ position <= Stage.width sample_stage - PADDLE_WIDTH / #2)
       (paddle_seed sample_stage
        :: createPaddle sample_stage
             [inl (mkTicker #1000 None); inr ARROW_LEFT;
              inl (mkTicker #1017 (Some (#17 / #1000)));
              inl (mkTicker #3017 (Some #2)); inr ARROW_RIGHT;
              inl (mkTicker #9017 (Some #6))]).
Proof.
  assert (Hfits : PADDLE_WIDTH <= Stage.width sample_stage) by (vm_compute; discriminate).
  split; [exact Hfits|].
  exact (paddle_stays_in_range sample_stage _ Hfits).
Defined.

(** ** Paddle hit *)

(** C7 (as amended): [isHit] is true exactly when the x coordinate of
    the ball is strictly inside the span of half a paddle width on
    either side of the paddle centre and its y coordinate is greater
    than the top edge of the paddle, which lies [PADDLE_HEIGHT] above
    the bottom of the stage, minus one ball radius; no limit is tested
    on the other side.  The function only reads its arguments and the
    stage: its result is all it produces. *)
Theorem isHit_spec stage ball paddle :
  isHit stage ball paddle = true <->
  (paddle - PADDLE_WIDTH / #2 < x (position ball)
   /\ x (position ball) < paddle + PADDLE_WIDTH / #2)
  /\ (Stage.height stage - PADDLE_HEIGHT) - BALL_RADIUS < y (position ball).
Proof.
  unfold isHit. rewrite !andb_true_iff, !gt_true, lt_true. tauto.
Qed.

(** C7 (as stated) fails: a ball over the paddle whose centre is 15
    below the top edge of the paddle, so further from it than one ball
    radius, is a hit. *)
Lemma hit_far_below_paddle_top :
  let top := Stage.height sample_stage - PADDLE_HEIGHT in
  let ball_y := y (position ball_beside_paddle) in
  isHit sample_stage ball_beside_paddle #240 = true
  /\ top + BALL_RADIUS < ball_y
  /\ ~ (top - BALL_RADIUS <= ball_y /\ ball_y <= top + BALL_RADIUS).
Proof.
  cbv zeta. split; [vm_compute; reflexivity|]. split; [vm_compute; reflexivity|].
  intros [_ Hnear]. vm_compute in Hnear. by apply Hnear.
Qed.

(** ** Restart *)

(** C8: once a session has ended, the resubscription that follows the
    delay starts the next session from the state a session has at boot:
    the score is 0 and the bricks are the full grid of
    [BRICK_ROWS * BRICK_COLUMNS] bricks laid out by [createBricks]. *)
Theorem restart_gives_initial_state stage events err :
  run stage events = Terminal err ->
  let restarted := run stage (events ++ [DelayElapsed]) in
  restarted = run stage []
  /\ restarted = Playing (initialState stage)
  /\ score (initialState stage) = #0
  /\ bricks (initialState stage) = createBricks stage
  /\ length (createBricks stage) = (BRICK_ROWS * BRICK_COLUMNS)%nat
  /\ createBricks stage =
     flat_map (fun i => map (brick_at stage i) (seq 0 BRICK_COLUMNS)) (seq 0 BRICK_ROWS).
Proof.
  intros Hend restarted. subst restarted.
  assert (Hrun : run stage (events ++ [DelayElapsed]) = Playing (initialState stage)).
  { unfold run in *. rewrite foldl_app. cbn [foldl]. rewrite Hend. reflexivity. }
  rewrite Hrun. by repeat split.
Qed.

Lemma restart_gives_initial_state_witness :
  run sample_stage losing_frames = Terminal "game over"
  /\ run sample_stage (losing_frames ++ [DelayElapsed]) = Playing (initialState sample_stage).
Proof.
  assert (Hend : run sample_stage losing_frames = Terminal "game over")
    by (vm_compute; reflexivity).
  split; [exact Hend|].
  exact (proj1 (proj2 (restart_gives_initial_state sample_stage losing_frames _ Hend))).
Defined.

(** ** First tick *)

(** C9: the first tick of the clock stream carries a null [deltaTime].
    Arithmetic converts it to 0, so the distance given to the paddle
    accumulator is 0 and a paddle inside its range stays where it is,
    and the reducer leaves the ball where it was. *)
Theorem first_tick_is_neutral stage now clock direction paddle0 state paddle :
  paddle_in_range stage paddle0 ->
  let first := mkTicker now None in
  head (ticker_stream (now :: clock)) = Some first
  /\ paddle_dist first direction = 0
  /\ paddle_step stage paddle0 (paddle_dist first direction) = paddle0
  /\ position (ball (reducer stage state (first, paddle))) = position (ball state).
Proof.
  intros [Hlow Hhigh] first. subst first.
  assert (Hdist : paddle_dist (mkTicker now None) direction = 0).
  { unfold paddle_dist. cbn. ring. }
  split; [reflexivity|]. split; [exact Hdist|]. split.
  - rewrite Hdist. unfold paddle_step, Math_max, Math_min, lt.
    rewrite Qcplus_0_r. repeat case_bool_decide; qc_lra.
  - rewrite reducer_position, move_zero; reflexivity.
Qed.

Lemma first_tick_is_neutral_witness :
  paddle_in_range sample_stage #240
  /\ paddle_step sample_stage #240 (paddle_dist (mkTicker #1000 None) ARROW_LEFT) = #240.
Proof.
  assert (Hrange : paddle_in_range sample_stage #240)
    by (split; vm_compute; discriminate).
  split; [exact Hrange|].
  exact (proj1 (proj2 (proj2
    (first_tick_is_neutral sample_stage #1000 [] ARROW_LEFT #240
       (initialState sample_stage) #240 Hrange)))).
Defined.

(** ** Direction *)

Lemma direction_of_event_eq event :
  direction_of_event event =
  match type event with
  | keyup => [#0]
  | keydown =>
      if decide (key event = "ArrowLeft") then [ARROW_LEFT]
      else if decide (key event = "ArrowRight") then [ARROW_RIGHT]
      else []
  end.
Proof.
  unfold direction_of_event, keyDown, keyUp.
  destruct (type event); [reflexivity|].
  rewrite !filter_cons, !filter_nil.
  repeat case_decide; try reflexivity. congruence.
Qed.

Lemma direction_signal_snoc events event :
  direction_signal (events ++ [event]) =
  match last (direction_of_event event) with
  | Some direction => Some direction
  | None => direction_signal events
  end.
Proof.
  unfold direction_signal, direction_stream.
  rewrite map_app, concat_app. cbn [map concat]. rewrite app_nil_r.
  rewrite direction_of_event_eq.
  destruct (type event); [by rewrite last_snoc|].
  repeat case_decide; cbn [last]; rewrite ?last_snoc, ?app_nil_r; reflexivity.
Qed.

(** C10: every value of the direction signal is -1, 0 or 1; a keyup of
    any key sets it to 0; a keydown sets it to -1 for the left arrow,
    to 1 for the right arrow, and leaves it as it was for every other
    key. *)
Theorem direction_signal_spec events pressed :
  Forall (fun direction => direction = - #1 \/ direction = #0 \/ direction = #1)
    (direction_stream events)
  /\ direction_signal (events ++ [mkKeyboardEvent keyup pressed]) = Some #0
  /\ direction_signal (events ++ [mkKeyboardEvent keydown pressed]) =
     (if decide (pressed = "ArrowLeft") then Some (- #1)
      else if decide (pressed = "ArrowRight") then Some #1
      else direction_signal events).
Proof.
  split; [|split].
  - unfold direction_stream. induction events as [|event events IH]; cbn.
    + constructor.
    + apply Forall_app. split; [|exact IH].
      rewrite direction_of_event_eq. destruct (type event).
      * constructor; [auto | constructor].
      * repeat case_decide; try constructor; auto; constructor.
  - rewrite direction_signal_snoc, direction_of_event_eq. reflexivity.
  - rewrite direction_signal_snoc, direction_of_event_eq. cbn [type key].
    repeat case_decide; reflexivity.
Qed.


(** * Further properties of the code *)

(** ** Clock stream *)

Lemma ticker_scan previous clock :
  map time
    (scan (fun previous current =>
             mkTicker (time current) (Some ((time current - time previous) / #1000)))
       previous (map (fun now => mkTicker now None) clock)) = clock.
Proof.
  revert previous. induction clock as [|now clock IH]; intros previous; [done|].
  cbn. f_equal. apply IH.
Qed.

Lemma ticker_scan_lookup previous prefix a b suffix :
  scan (fun previous current =>
          mkTicker (time current) (Some ((time current - time previous) / #1000)))
    previous (map (fun now => mkTicker now None) (prefix ++ a :: b :: suffix))
    !! S (length prefix)
  = Some (mkTicker b (Some ((b - a) / #1000))).
Proof.
  revert previous. induction prefix as [|now prefix IH]; intros previous; [done|].
  cbn. apply IH.
Qed.

(** X1: the clock stream emits one tick per reading of the clock, each
    carrying that reading as its time; every tick after the first
    carries as delta the difference to the previous reading, divided by
    1000. *)
Theorem ticker_stream_times_and_deltas clock prefix a b suffix :
  map time (ticker_stream clock) = clock
  /\ length (ticker_stream clock) = length clock
  /\ ticker_stream (prefix ++ a :: b :: suffix) !! S (length prefix)
     = Some (mkTicker b (Some ((b - a) / #1000))).
Proof.
  assert (Htimes : map time (ticker_stream clock) = clock).
  { destruct clock as [|now clock]; [done|]. cbn. f_equal. apply ticker_scan. }
  split; [exact Htimes|]. split.
  - rewrite <- Htimes at 2. by rewrite length_map.
  - destruct prefix as [|now prefix]; [done|]. cbn.
    apply (ticker_scan_lookup (mkTicker now None) prefix a b suffix).
Qed.

Lemma ticker_scan_nonneg previous clock :
  Sorted Qcle (time previous :: clock) ->
  Forall (fun ticker => 0 <= ToNumber (deltaTime ticker))
    (scan (fun previous current =>
             mkTicker (time current) (Some ((time current - time previous) / #1000)))
       previous (map (fun now => mkTicker now None) clock)).
Proof.
  revert previous. induction clock as [|now clock IH]; intros previous Hsorted; cbn.
  - constructor.
  - apply Sorted_inv in Hsorted as [Hsorted Hhd]. apply HdRel_inv in Hhd.
    constructor.
    + cbn. qc_lra.
    + apply (IH (mkTicker now _)). exact Hsorted.
Qed.

(** X2: when the readings of the clock never go back, no tick moves
    time backwards: the delta every tick contributes to the integrators
    (0 for the null of the first tick) is not negative. *)
Theorem ticker_stream_deltas_nonneg clock :
  Sorted Qcle clock ->
  Forall (fun ticker => 0 <= ToNumber (deltaTime ticker)) (ticker_stream clock).
Proof.
  intros Hsorted. destruct clock as [|now clock]; [constructor|]. cbn.
  constructor; [apply Qcle_refl|].
  apply (ticker_scan_nonneg (mkTicker now None)). exact Hsorted.
Qed.

Lemma ticker_stream_deltas_nonneg_witness :
  Sorted Qcle [#1000; #1016; #1033]
  /\ Forall (fun ticker => 0 <= ToNumber (deltaTime ticker))
       (ticker_stream [#1000; #1016; #1033]).
Proof.
  assert (Hsorted : Sorted Qcle [#1000; #1016; #1033]).
  { repeat constructor; vm_compute; discriminate. }
  split; [exact Hsorted|].
  exact (ticker_stream_deltas_nonneg _ Hsorted).
Defined.

(** ** distinctUntilChanged *)

Lemma distinctUntilChanged_from_adjacent previous source i a b :
  (previous :: distinctUntilChanged_from previous source) !! i = Some a ->
  (previous :: distinctUntilChanged_from previous source) !! S i = Some b ->
  a <> b.
Proof.
  revert previous i. induction source as [|value source IH]; intros previous i; cbn.
  - destruct i; cbn; [done|]. intros Ha. by destruct i.
  - case_bool_decide as Hsame.
    + apply IH.
    + destruct i as [|i]; cbn.
      * intros [= <-] [= <-]. congruence.
      * apply (IH value i).
Qed.

Lemma distinctUntilChanged_from_last previous source :
  last (previous :: distinctUntilChanged_from previous source) = last (previous :: source).
Proof.
  revert previous. induction source as [|value source IH]; intros previous; [done|].
  cbn [distinctUntilChanged_from]. case_bool_decide as Hsame.
  - rewrite IH. subst value. by rewrite last_cons_cons.
  - by rewrite !last_cons_cons, IH.
Qed.

Lemma distinctUntilChanged_from_sublist previous source :
  distinctUntilChanged_from previous source `sublist_of` source.
Proof.
  revert previous. induction source as [|value source IH]; intros previous; cbn.
  - constructor.
  - case_bool_decide; [apply sublist_cons | apply sublist_skip]; apply IH.
Qed.

(** X3: [distinctUntilChanged] never emits the same value twice in a
    row. *)
Theorem distinctUntilChanged_adjacent_differ source i a b :
  distinctUntilChanged source !! i = Some a ->
  distinctUntilChanged source !! S i = Some b ->
  a <> b.
Proof.
  destruct source as [|first source]; cbn [distinctUntilChanged].
  - intros Ha. by destruct i.
  - apply distinctUntilChanged_from_adjacent.
Qed.

Lemma distinctUntilChanged_adjacent_differ_witness :
  distinctUntilChanged [#240; #240; #236; #236; #240] !! 1%nat = Some #236
  /\ distinctUntilChanged [#240; #240; #236; #236; #240] !! 2%nat = Some #240
  /\ #236 <> #240.
Proof.
  assert (H1 : distinctUntilChanged [#240; #240; #236; #236; #240] !! 1%nat = Some #236)
    by (vm_compute; reflexivity).
  assert (H2 : distinctUntilChanged [#240; #240; #236; #236; #240] !! 2%nat = Some #240)
    by (vm_compute; reflexivity).
  split; [exact H1|]. split; [exact H2|].
  exact (distinctUntilChanged_adjacent_differ _ _ _ _ H1 H2).
Defined.

(** X4: [distinctUntilChanged] only drops values: what it emits is a
    subsequence of its source that starts with the same value and ends
    with the same value, so a consumer reading the latest value sees
    what it would see without it. *)
Theorem distinctUntilChanged_keeps_ends source :
  distinctUntilChanged source `sublist_of` source
  /\ head (distinctUntilChanged source) = head source
  /\ last (distinctUntilChanged source) = last source.
Proof.
  destruct source as [|first source]; [done|]. cbn [distinctUntilChanged].
  split; [|split].
  - apply sublist_skip, distinctUntilChanged_from_sublist.
  - reflexivity.
  - apply distinctUntilChanged_from_last.
Qed.

(** ** withLatestFrom *)

Lemma withLatestFrom_early {A B} (early : list A) (arrivals : list (A + B)) :
  withLatestFrom None (map inl early ++ arrivals) = withLatestFrom None arrivals.
Proof. induction early as [|a early IH]; [done|]. cbn. exact IH. Qed.

Lemma withLatestFrom_steady {A B} (b : B) (source : list A) :
  withLatestFrom (Some b) (map inl source) = map (fun a => (a, b)) source.
Proof. induction source as [|a source IH]; [done|]. cbn. by rewrite IH. Qed.

(** X5: the ticks that arrive before the first value of the second
    stream are lost: until [direction$] has emitted, [createPaddle$]
    emits nothing, and until [paddle$] has emitted, [createState$]
    emits nothing; from the first paddle value on, and as long as the
    paddle does not move, every tick is reduced with that value,
    starting from the initial state. *)
Theorem streams_wait_for_first_value stage (early ticks : list Ticker) (paddle : number) :
  createPaddle stage (map inl early) = []
  /\ createState stage (map inl early) = []
  /\ createState stage (map inl early ++ inr paddle :: map inl ticks) =
     scan (reducer stage) (initialState stage) (map (fun ticker => (ticker, paddle)) ticks).
Proof.
  unfold createPaddle, createState.
  pose proof (withLatestFrom_early (B := number) early []) as Hearly.
  rewrite app_nil_r in Hearly. rewrite Hearly, withLatestFrom_early. cbn.
  by rewrite withLatestFrom_steady.
Qed.

(** ** Paddle movement *)

Lemma distinctUntilChanged_from_replicate value n :
  distinctUntilChanged_from value (replicate n value) = [].
Proof.
  induction n as [|n IH]; [done|]. cbn. by rewrite bool_decide_eq_true_2.
Qed.

Lemma paddle_step_zero stage position :
  paddle_in_range stage position -> paddle_step stage position 0 = position.
Proof.
  intros [Hlow Hhigh]. unfold paddle_step, Math_max, Math_min, lt.
  rewrite Qcplus_0_r. repeat case_bool_decide; qc_lra.
Qed.

Lemma withLatestFrom_idle latest (arrivals : list (Ticker + number)) :
  Forall (fun arrival => match arrival with inl _ => True | inr d => d = #0 end) arrivals ->
  match latest with Some d => d = #0 | None => True end ->
  map (fun '(ticker, direction) => paddle_dist ticker direction)
    (withLatestFrom latest arrivals)
  = replicate (length (withLatestFrom latest arrivals)) 0.
Proof.
  intros Hall. revert latest.
  induction Hall as [|arrival arrivals Harrival _ IH]; intros latest Hlatest; [done|].
  destruct arrival as [ticker|d]; cbn.
  - destruct latest as [d|]; [|by apply IH]. cbn. rewrite IH by done. f_equal.
    unfold paddle_dist. rewrite Hlatest, Z2Qc_inj_0. ring.
  - by apply IH.
Qed.

Lemma paddle_scan_idle stage position n :
  paddle_in_range stage position ->
  scan (paddle_step stage) position (replicate n 0) = replicate n position.
Proof.
  intros Hrange. induction n as [|n IH]; [done|].
  cbn. rewrite paddle_step_zero by done. by rewrite IH.
Qed.

(** X6: on a stage at least as wide as the paddle, while the direction
    signal is 0 (no arrow key held) the paddle stays at the centre of
    the stage, and [createPaddle$] emits that position once, on the
    first tick that finds a direction, and nothing afterwards. *)
Theorem idle_paddle_emits_once stage (arrivals : list (Ticker + number)) :
  PADDLE_WIDTH <= Stage.width stage ->
  Forall (fun arrival => match arrival with inl _ => True | inr d => d = #0 end) arrivals ->
  createPaddle stage arrivals =
  match withLatestFrom None arrivals with
  | [] => []
  | _ :: _ => [Stage.width stage / #2]
  end.
Proof.
  intros Hfits Hall. unfold createPaddle.
  rewrite (withLatestFrom_idle None arrivals Hall I).
  rewrite paddle_scan_idle by (by apply paddle_seed_in_range).
  destruct (withLatestFrom None arrivals) as [|pair pairs]; [done|].
  cbn. by rewrite distinctUntilChanged_from_replicate.
Qed.

Lemma idle_paddle_emits_once_witness :
  createPaddle sample_stage
    [inl (mkTicker #1000 None); inr #0;
     inl (mkTicker #1016 (Some (#16 / #1000)));
     inl (mkTicker #1033 (Some (#17 / #1000)))]
  = [Stage.width sample_stage / #2].
Proof.
  apply (idle_paddle_emits_once sample_stage).
  - vm_compute; discriminate.
  - repeat constructor.
Defined.

(** X7: on a stage at least as wide as the paddle, a paddle inside its
    range moves by exactly the distance it is given, up to the bound on
    the side it moves to: to the right it stops at
    [stage.width - PADDLE_WIDTH / 2], to the left at [PADDLE_WIDTH / 2],
    and it never moves against the sign of the distance. *)
Theorem paddle_step_moves_or_saturates stage position dist :
  PADDLE_WIDTH <= Stage.width stage ->
  paddle_in_range stage position ->
  (0 <= dist ->
   paddle_step stage position dist
   = Math_min (position + dist) (Stage.width stage - PADDLE_WIDTH / #2)
   /\ position <= paddle_step stage position dist)
  /\ (dist <= 0 ->
      paddle_step stage position dist = Math_max (position + dist) (PADDLE_WIDTH / #2)
      /\ paddle_step stage position dist <= position).
Proof.
  intros Hfits [Hlow Hhigh].
  unfold paddle_step, Math_max, Math_min, lt, PADDLE_WIDTH in *.
  split; intros Hdist; repeat case_bool_decide; split; qc_lra.
Qed.

Lemma paddle_step_moves_or_saturates_witness :
  PADDLE_WIDTH <= Stage.width sample_stage
  /\ paddle_in_range sample_stage #370
  /\ paddle_step sample_stage #370 #24 = #380.
Proof.
  assert (Hfits : PADDLE_WIDTH <= Stage.width sample_stage) by (vm_compute; discriminate).
  assert (Hrange : paddle_in_range sample_stage #370) by (split; vm_compute; discriminate).
  assert (Hdist : 0 <= #24) by (vm_compute; discriminate).
  split; [exact Hfits|]. split; [exact Hrange|].
  rewrite (proj1 (proj1 (paddle_step_moves_or_saturates sample_stage #370 #24 Hfits Hrange)
                    Hdist)).
  apply Qc_is_canon. vm_compute. reflexivity.
Defined.

(** ** Ball direction and speed *)

Lemma reducer_direction stage state input :
  let before := direction (ball state) in
  let after := direction (ball (reducer stage state input)) in
  (x after = x before \/ x after = - x before)
  /\ (y after = y before \/ y after = - y before).
Proof.
  cbv zeta. unfold reducer. rewrite reducer_collision_eq. cbn.
  split; match goal with |- context [if ?c then _ else _] => destruct c end; auto.
Qed.

Lemma session_direction stage inputs :
  let d := direction (ball (session_state stage inputs)) in
  (x d = #2 \/ x d = - #2) /\ (y d = #2 \/ y d = - #2).
Proof.
  cbv zeta. induction inputs as [|input inputs IH] using rev_ind.
  - cbn. auto.
  - rewrite session_state_snoc.
    destruct (reducer_direction stage (session_state stage inputs) input) as [Hx Hy].
    destruct IH as [IHx IHy]. split.
    + destruct Hx as [-> | ->], IHx as [-> | ->]; rewrite ?Qcopp_involutive; auto.
    + destruct Hy as [-> | ->], IHy as [-> | ->]; rewrite ?Qcopp_involutive; auto.
Qed.

(** X8: the reducer only ever changes the sign of the components of
    the ball's direction; in a session, which starts with direction
    (2, 2), each component is 2 or -2 at every tick. *)
Theorem direction_only_changes_sign stage state input inputs :
  let before := direction (ball state) in
  let after := direction (ball (reducer stage state input)) in
  let d := direction (ball (session_state stage inputs)) in
  (x after = x before \/ x after = - x before)
  /\ (y after = y before \/ y after = - y before)
  /\ (x d = #2 \/ x d = - #2)
  /\ (y d = #2 \/ y d = - #2).
Proof.
  cbv zeta.
  destruct (reducer_direction stage state input) as [Hx Hy].
  destruct (session_direction stage inputs) as [Hsx Hsy]. auto.
Qed.

(** X9: in a session the ball travels at constant speed along each
    axis: on a tick with delta [dt] (0 for the null of a first tick)
    each coordinate changes by exactly [120 * dt], up or down. *)
Theorem ball_speed_is_constant stage inputs input :
  let before := position (ball (session_state stage inputs)) in
  let after := position (ball (session_state stage (inputs ++ [input]))) in
  let dt := ToNumber (deltaTime (fst input)) in
  (x after = x before + #120 * dt \/ x after = x before - #120 * dt)
  /\ (y after = y before + #120 * dt \/ y after = y before - #120 * dt).
Proof.
  cbv zeta. rewrite session_state_snoc, reducer_position.
  destruct (session_direction stage inputs) as [Hx Hy].
  unfold move, BALL_SPEED. cbn [position x y].
  split.
  - destruct Hx as [-> | ->]; [left | right]; qc_lra.
  - destruct Hy as [-> | ->]; [left | right]; qc_lra.
Qed.

(** ** Score and bricks *)

Lemma of_nat_add (n m : nat) : of_nat (n + m) = of_nat n + of_nat m.
Proof. unfold of_nat. by rewrite Nat2Z.inj_add, Z2Qc_inj_add. Qed.

Lemma session_score_bricks stage inputs :
  score (session_state stage inputs)
  + #10 * of_nat (length (bricks (session_state stage inputs))) = #350.
Proof.
  induction inputs as [|input inputs IH] using rev_ind.
  - apply Qc_is_canon. vm_compute. reflexivity.
  - rewrite session_state_snoc, reducer_score, reducer_bricks.
    pose proof (kept_destroyed_length
      (move (ball (session_state stage inputs)) (fst input))
      (bricks (session_state stage inputs))) as Hlen.
    rewrite <- Hlen, of_nat_add in IH. rewrite <- IH. ring.
Qed.

(** X10: in a session the score and the bricks left always add up:
    the score plus 10 for each remaining brick is 350, ten times the
    size of the grid.  So the score never exceeds 350, and it is 350
    exactly when no brick is left. *)
Theorem score_accounts_for_bricks stage inputs :
  let state := session_state stage inputs in
  score state + #10 * of_nat (length (bricks state)) = #350
  /\ score state <= #350
  /\ (bricks state = [] <-> score state = #350).
Proof.
  cbv zeta. pose proof (session_score_bricks stage inputs) as Hsum.
  pose proof (ten_times_nonneg (length (bricks (session_state stage inputs)))) as Hnonneg.
  split; [exact Hsum|]. split.
  - rewrite <- Hsum. rewrite <- (Qcplus_0_r (score _)) at 1.
    by apply Qcplus_le_mono_l.
  - split.
    + intros Hnil. rewrite Hnil in Hsum. cbn in Hsum. rewrite <- Hsum.
      change (of_nat 0) with #0. rewrite Z2Qc_inj_0. ring.
    + intros Hscore. destruct (bricks (session_state stage inputs)) as [|b bs]; [done|].
      exfalso. rewrite Hscore in Hsum. cbn [length] in Hsum.
      rewrite of_nat_S in Hsum. pose proof (of_nat_nonneg (length bs)) as Hlen.
      clear Hnonneg Hscore. qc_lra.
Qed.

(** ** Layout of the grid *)

Ltac of_nat_literals :=
  repeat match goal with
  | |- context [of_nat ?n] =>
      let z := eval cbv in (Z.of_nat n) in change (of_nat n) with (Qc_of_Z z) in *
  | H : context [of_nat ?n] |- _ =>
      let z := eval cbv in (Z.of_nat n) in change (of_nat n) with (Qc_of_Z z) in *
  end.

Lemma row_edges (n : number) :
  n * (BRICK_HEIGHT + BRICK_GAP) + BRICK_HEIGHT / #2 + BRICK_GAP + #20 - BRICK_HEIGHT / #2
  = BRICK_GAP + #20 + n * (BRICK_HEIGHT + BRICK_GAP)
  /\ n * (BRICK_HEIGHT + BRICK_GAP) + BRICK_HEIGHT / #2 + BRICK_GAP + #20 + BRICK_HEIGHT / #2
    = BRICK_GAP + #20 + n * (BRICK_HEIGHT + BRICK_GAP) + BRICK_HEIGHT.
Proof. unfold BRICK_HEIGHT, BRICK_GAP. split; qc_lra. Qed.

Lemma row_of_bricks_edges stage i columns :
  map (fun brick => (Brick.y brick - Brick.height brick / #2,
                     Brick.y brick + Brick.height brick / #2))
    (map (brick_at stage i) columns)
  = replicate (length columns)
      (BRICK_GAP + #20 + of_nat i * (BRICK_HEIGHT + BRICK_GAP),
       BRICK_GAP + #20 + of_nat i * (BRICK_HEIGHT + BRICK_GAP) + BRICK_HEIGHT).
Proof.
  induction columns as [|j columns IH]; [done|].
  cbn [map replicate length]. rewrite IH. f_equal.
  unfold brick_at. cbn [Brick.y Brick.height].
  destruct (row_edges (of_nat i)) as [-> ->]. reflexivity.
Qed.

(** X11: [createBricks] makes [BRICK_ROWS] rows of [BRICK_COLUMNS]
    bricks, all of height [BRICK_HEIGHT] and of one width.  Whatever
    the size of the stage, the bricks of row [i] have their top edge at
    [BRICK_GAP + 20 + i * (BRICK_HEIGHT + BRICK_GAP)] and their bottom
    edge [BRICK_HEIGHT] lower: the first row starts [BRICK_GAP + 20]
    below the top and the rows are [BRICK_GAP] apart. *)
Theorem rows_are_evenly_spaced stage :
  map (fun brick => (Brick.y brick - Brick.height brick / #2,
                     Brick.y brick + Brick.height brick / #2))
    (createBricks stage)
  = flat_map
      (fun i =>
         replicate BRICK_COLUMNS
           (BRICK_GAP + #20 + of_nat i * (BRICK_HEIGHT + BRICK_GAP),
            BRICK_GAP + #20 + of_nat i * (BRICK_HEIGHT + BRICK_GAP) + BRICK_HEIGHT))
      (seq 0 BRICK_ROWS)
  /\ Forall (fun brick =>
               Brick.height brick = BRICK_HEIGHT /\ Brick.width brick = brick_width stage)
       (createBricks stage).
Proof.
  split.
  - change (createBricks stage)
      with (flat_map (fun i => map (brick_at stage i) (seq 0 BRICK_COLUMNS))
              (seq 0 BRICK_ROWS)).
    induction (seq 0 BRICK_ROWS) as [|i rows IH]; [done|].
    cbn [flat_map]. rewrite map_app, IH. f_equal.
    apply (row_of_bricks_edges stage i (seq 0 BRICK_COLUMNS)).
  - change (createBricks stage)
      with (flat_map (fun i => map (brick_at stage i) (seq 0 BRICK_COLUMNS))
              (seq 0 BRICK_ROWS)).
    repeat constructor.
Qed.

(** ** One brick per tick *)

Lemma of_nat_le (n m : nat) : (n <= m)%nat -> of_nat n <= of_nat m.
Proof.
  intros Hle. unfold of_nat.
  apply (proj1 (Z2Qc_inj_le (Z.of_nat n) (Z.of_nat m))). lia.
Qed.

(** Bands of width [u] starting at [a]: a point lies in at most one. *)
Lemma band_unique (u a p : number) (n m : nat) :
  0 < u ->
  of_nat n * u + a < p -> p < (of_nat n + 1) * u + a ->
  of_nat m * u + a < p -> p < (of_nat m + 1) * u + a ->
  n = m.
Proof.
  rewrite <- !of_nat_S. intros Hu Hn1 Hn2 Hm1 Hm2.
  destruct (lt_eq_lt_dec n m) as [[Hlt|Heq]|Hgt]; [exfalso|exact Heq|exfalso].
  - assert (Hle : of_nat (S n) * u <= of_nat m * u).
    { apply Qcmult_le_mono_nonneg_r; [by apply Qclt_le_weak|]. apply of_nat_le. lia. }
    revert Hle Hn2 Hm1.
    generalize (of_nat (S n) * u) (of_nat m * u). intros A B ? ? ?. qc_lra.
  - assert (Hle : of_nat (S m) * u <= of_nat n * u).
    { apply Qcmult_le_mono_nonneg_r; [by apply Qclt_le_weak|]. apply of_nat_le. lia. }
    revert Hle Hm2 Hn1.
    generalize (of_nat (S m) * u) (of_nat n * u). intros A B ? ? ?. qc_lra.
Qed.

Lemma row_unique (py n n' : number) :
  n * (BRICK_HEIGHT + BRICK_GAP) + BRICK_HEIGHT / #2 + BRICK_GAP + #20
    - BRICK_HEIGHT / #2 < py ->
  py < n * (BRICK_HEIGHT + BRICK_GAP) + BRICK_HEIGHT / #2 + BRICK_GAP + #20
       + BRICK_HEIGHT / #2 ->
  n' * (BRICK_HEIGHT + BRICK_GAP) + BRICK_HEIGHT / #2 + BRICK_GAP + #20
    - BRICK_HEIGHT / #2 < py ->
  py < n' * (BRICK_HEIGHT + BRICK_GAP) + BRICK_HEIGHT / #2 + BRICK_GAP + #20
       + BRICK_HEIGHT / #2 ->
  (n * #23 + #23 < py /\ py < (n + 1) * #23 + #23)
  /\ (n' * #23 + #23 < py /\ py < (n' + 1) * #23 + #23).
Proof.
  unfold BRICK_HEIGHT, BRICK_GAP. intros H1 H2 H3 H4. repeat split; qc_lra.
Qed.

Lemma column_unique (px w n n' : number) :
  n * (w + BRICK_GAP) + w / #2 + BRICK_GAP - w / #2 < px ->
  px < n * (w + BRICK_GAP) + w / #2 + BRICK_GAP + w / #2 ->
  n' * (w + BRICK_GAP) + w / #2 + BRICK_GAP - w / #2 < px ->
  px < n' * (w + BRICK_GAP) + w / #2 + BRICK_GAP + w / #2 ->
  0 < w + #3
  /\ (n * (w + #3) + #3 < px /\ px < (n + 1) * (w + #3) + #3)
  /\ (n' * (w + #3) + #3 < px /\ px < (n' + 1) * (w + #3) + #3).
Proof.
  unfold BRICK_GAP. intros H1 H2 H3 H4. repeat split; qc_lra.
Qed.

Lemma collision_unique stage ball (i j i' j' : nat) :
  isCollision ball (brick_at stage i j) = true ->
  isCollision ball (brick_at stage i' j') = true ->
  (i, j) = (i', j').
Proof.
  unfold isCollision, brick_at.
  cbn [Brick.x Brick.y Brick.width Brick.height].
  rewrite !andb_true_iff, !gt_true, !lt_true.
  intros [[[H1 H2] H3] H4] [[[H5 H6] H7] H8].
  destruct (row_unique _ _ _ H3 H4 H7 H8) as [[R1 R2] [R3 R4]].
  destruct (column_unique _ _ _ _ H1 H2 H5 H6) as (Hw & [C1 C2] & [C3 C4]).
  f_equal.
  - exact (band_unique #23 #23 _ i i' eq_refl R1 R2 R3 R4).
  - exact (band_unique _ #3 _ j j' Hw C1 C2 C3 C4).
Qed.

Lemma filter_at_most_one {A B} (f : A -> B) (P : B -> Prop)
    `{!forall b, Decision (P b)} (indices : list A) :
  NoDup indices ->
  (forall a a', P (f a) -> P (f a') -> a = a') ->
  (length (filter P (map f indices)) <= 1)%nat.
Proof.
  intros Hnodup Hunique. induction Hnodup as [|a indices Hnotin Hnodup IH]; [cbn; lia|].
  cbn [map]. rewrite filter_cons. case_decide as Ha; [|exact IH].
  assert (Hnone : filter P (map f indices) = []).
  { destruct (filter P (map f indices)) as [|b rest] eqn:Hfilter; [done|].
    exfalso. assert (Hb : b ∈ filter P (map f indices)) by (rewrite Hfilter; left).
    apply list_elem_of_filter in Hb as [HPb Hb].
    apply list_elem_of_fmap in Hb as (a' & -> & Ha').
    apply Hnotin. by rewrite (Hunique a a' Ha HPb). }
  rewrite Hnone. cbn. lia.
Qed.

Lemma filter_sublist_mono {A} (P : A -> Prop) `{!forall a, Decision (P a)} (l1 l2 : list A) :
  l1 `sublist_of` l2 -> filter P l1 `sublist_of` filter P l2.
Proof.
  induction 1 as [|a l1 l2 _ IH|a l1 l2 _ IH]; [constructor|..];
    rewrite !filter_cons; case_decide; try done.
  - by apply sublist_skip.
  - by apply sublist_cons.
Qed.

Lemma createBricks_indices stage :
  createBricks stage =
  map (fun index => brick_at stage index.1 index.2)
    (i ← seq 0 BRICK_ROWS; j ← seq 0 BRICK_COLUMNS; [(i, j)]).
Proof. reflexivity. Qed.

Lemma destroyed_grid_at_most_one stage ball :
  (length (destroyed ball (createBricks stage)) <= 1)%nat.
Proof.
  rewrite createBricks_indices. unfold destroyed.
  apply (filter_at_most_one (fun index => brick_at stage index.1 index.2)).
  - apply (bool_decide_unpack _). vm_compute. exact I.
  - intros [i j] [i' j'] H1 H2. exact (collision_unique stage ball i j i' j' H1 H2).
Qed.

Lemma session_bricks_sublist stage inputs :
  bricks (session_state stage inputs) `sublist_of` createBricks stage.
Proof.
  induction inputs as [|input inputs IH] using rev_ind; [done|].
  rewrite session_state_snoc, reducer_bricks. etrans; [apply kept_sublist | exact IH].
Qed.

(** X12: the bricks of the grid do not overlap, so the look-ahead point
    of the ball is inside at most one of them: in a session a tick
    removes at most one brick and adds 0 or 10 to the score. *)
Theorem at_most_one_brick_per_tick stage inputs input :
  let before := session_state stage inputs in
  let after := session_state stage (inputs ++ [input]) in
  (length (bricks before) <= S (length (bricks after)))%nat
  /\ (score after = score before \/ score after = score before + #10).
Proof.
  cbv zeta. rewrite session_state_snoc, reducer_score, reducer_bricks.
  set (state := session_state stage inputs).
  set (ball' := move (ball state) (fst input)).
  pose proof (kept_destroyed_length ball' (bricks state)) as Hsplit.
  assert (Hone : (length (destroyed ball' (bricks state)) <= 1)%nat).
  { etrans; [|apply (destroyed_grid_at_most_one stage ball')].
    apply sublist_length, filter_sublist_mono, session_bricks_sublist. }
  split; [lia|].
  destruct (length (destroyed ball' (bricks state))) as [|[|n]]; [left|right|lia].
  - change (of_nat 0) with #0. rewrite Z2Qc_inj_0. ring.
  - change (of_nat 1) with #1. rewrite Z2Qc_inj_1. ring.
Qed.

(** ** Session controller *)

Lemma run_snoc stage events event :
  run stage (events ++ [event]) = fst (step stage (run stage events) event).
Proof. unfold run. by rewrite foldl_app. Qed.

Lemma createBricks_not_nil stage : createBricks stage <> [].
Proof. intros Hnil. apply (f_equal length) in Hnil. discriminate Hnil. Qed.

Lemma frame_outcome_eq stage previous ticker paddle :
  fst (step stage (Playing previous) (Frame ticker paddle)) =
  if bool_decide (Stage.height stage - BALL_RADIUS
                  < y (position (ball (reducer stage previous (ticker, paddle)))))
  then Terminal "game over"
  else if bool_decide (bricks (reducer stage previous (ticker, paddle)) = [])
  then Terminal "cong"
  else Playing (reducer stage previous (ticker, paddle)).
Proof.
  cbn [step]. rewrite first_error_updateView. unfold gt.
  case_bool_decide; [done|].
  destruct (bricks (reducer stage previous (ticker, paddle))); done.
Qed.

(** X13: the outcome of a frame.  The reducer's state decides: if the
    ball is below the floor line the session ends with the error
    'game over', also when the same frame has cleared the last brick;
    otherwise it ends with 'cong' if no brick is left; otherwise the
    session goes on with the reduced state. *)
Theorem frame_outcome stage previous ticker paddle :
  let state := reducer stage previous (ticker, paddle) in
  fst (step stage (Playing previous) (Frame ticker paddle)) =
  if bool_decide (Stage.height stage - BALL_RADIUS < y (position (ball state)))
  then Terminal "game over"
  else if bool_decide (bricks state = []) then Terminal "cong"
  else Playing state.
Proof. apply frame_outcome_eq. Qed.

Lemma running_invariant stage events state :
  run stage events = Playing state ->
  bricks state <> []
  /\ (#20 <= Stage.height stage ->
      y (position (ball state)) <= Stage.height stage - BALL_RADIUS).
Proof.
  assert (Hinit : bricks (initialState stage) <> []
    /\ (#20 <= Stage.height stage ->
        y (position (ball (initialState stage))) <= Stage.height stage - BALL_RADIUS)).
  { split; [apply createBricks_not_nil|]. cbn. unfold BALL_RADIUS. intros Hheight. qc_lra. }
  revert state. induction events as [|event events IH] using rev_ind; intros state.
  - intros [= <-]. exact Hinit.
  - rewrite run_snoc. destruct (run stage events) as [previous|err], event as [ticker paddle|].
    + rewrite frame_outcome_eq. case_bool_decide as Hlost; [done|].
      case_bool_decide as Hwon; [done|]. intros [= <-]. split; [exact Hwon|].
      intros _. by apply Qcle_ngt.
    + cbn. intros [= <-]. by apply IH.
    + done.
    + cbn. intros [= <-]. exact Hinit.
Qed.

(** X14: a session that is running always has a brick left, and on a
    stage at least 20 high its ball is not below the floor line: a
    state that meets a terminal condition is never played on. *)
Theorem running_session_is_not_over stage events state :
  run stage events = Playing state ->
  #20 <= Stage.height stage ->
  bricks state <> []
  /\ y (position (ball state)) <= Stage.height stage - BALL_RADIUS.
Proof.
  intros Hrun Hheight. destruct (running_invariant stage events state Hrun) as [Hbricks Hy].
  split; [exact Hbricks | by apply Hy].
Qed.

Lemma running_session_is_not_over_witness :
  run sample_stage [Frame tick_50ms #240]
  = Playing (reducer sample_stage (initialState sample_stage) (tick_50ms, #240))
  /\ #20 <= Stage.height sample_stage
  /\ bricks (reducer sample_stage (initialState sample_stage) (tick_50ms, #240)) <> [].
Proof.
  assert (Hrun : run sample_stage [Frame tick_50ms #240]
    = Playing (reducer sample_stage (initialState sample_stage) (tick_50ms, #240))).
  { change (run sample_stage [Frame tick_50ms #240])
      with (fst (step sample_stage (Playing (initialState sample_stage))
                   (Frame tick_50ms #240))).
    rewrite frame_outcome_eq.
    rewrite bool_decide_eq_false_2 by (vm_compute; discriminate).
    rewrite bool_decide_eq_false_2; [reflexivity|].
    intros Hnil. apply (f_equal length) in Hnil. vm_compute in Hnil. discriminate Hnil. }
  assert (Hheight : #20 <= Stage.height sample_stage) by (vm_compute; discriminate).
  split; [exact Hrun|]. split; [exact Hheight|].
  exact (proj1 (running_session_is_not_over sample_stage _ _ Hrun Hheight)).
Defined.

(** ** What is drawn is what is hit *)


Lemma half_width_sum (c w : number) : c - w / #2 + w = c + w / #2.
Proof. qc_lra. Qed.






(** X16: the rectangle [drawPaddle] paints is the one [isHit] tests:
    the ball hits the paddle exactly when its centre is strictly
    between the painted sides and lower than one ball radius above the
    painted top. *)
Theorem painted_paddle_is_hit_box stage ball paddle :
  isHit stage ball paddle = true
  <-> Exists (reaches (x (position ball)) (y (position ball)))
        (Canvas.drawPaddle stage paddle).
Proof.
  unfold Canvas.drawPaddle, isHit.
  rewrite !Exists_cons, Exists_nil. cbn [reaches].
  rewrite !andb_true_iff, !gt_true, !lt_true.
  assert (Hright : paddle - PADDLE_WIDTH / #2 + PADDLE_WIDTH = paddle + PADDLE_WIDTH / #2)
    by apply half_width_sum.
  rewrite Hright. tauto.
Qed.

(** ** Keys without effect *)

(** X17: pressing keys other than the two arrows emits nothing on
    [direction$]: the direction signal has no value yet, so the ticks
    that arrive are dropped and the paddle stream stays silent. *)
Theorem other_keys_emit_nothing stage (events : list KeyboardEvent) (ticks : list Ticker) :
  Forall (fun event =>
            type event = keydown
            /\ key event <> "ArrowLeft" /\ key event <> "ArrowRight") events ->
  direction_stream events = []
  /\ direction_signal events = None
  /\ createPaddle stage (map inr (direction_stream events) ++ map inl ticks) = [].
Proof.
  intros Hall.
  assert (Hstream : direction_stream events = []).
  { unfold direction_stream. induction Hall as [|event events (Htype & Hl & Hr) _ IH]; [done|].
    cbn. rewrite IH, app_nil_r, direction_of_event_eq, Htype.
    by rewrite !decide_False. }
  unfold direction_signal. rewrite Hstream. cbn [map app].
  split; [done|]. split; [done|].
  unfold createPaddle.
  pose proof (withLatestFrom_early (B := number) ticks []) as Hearly.
  rewrite app_nil_r in Hearly. by rewrite Hearly.
Qed.

Lemma other_keys_emit_nothing_witness :
  direction_signal [mkKeyboardEvent keydown " "; mkKeyboardEvent keydown "a"] = None.
Proof.
  refine (proj1 (proj2 (other_keys_emit_nothing sample_stage
    [mkKeyboardEvent keydown " "; mkKeyboardEvent keydown "a"] [] _))).
  repeat constructor; discriminate.
Defined.

(** ** Bounces *)

Lemma reducer_direction_x stage state input :
  x (direction (ball (reducer stage state input))) =
  if lt (x (position (ball (reducer stage state input)))) BALL_RADIUS
     || gt (x (position (ball (reducer stage state input)))) (Stage.width stage - BALL_RADIUS)
  then - x (direction (ball state))
  else x (direction (ball state)).
Proof. unfold reducer. rewrite reducer_collision_eq. reflexivity. Qed.

(** X18: the wall test does not look at where the ball is heading: a
    ball that two ticks in a row end inside the band of a side wall is
    turned around twice, so after the second tick it heads again the
    way it did before the first. *)
Theorem wall_band_turns_ball_twice stage state input1 input2 :
  let state1 := reducer stage state input1 in
  let state2 := reducer stage state1 input2 in
  let in_band p := p < BALL_RADIUS \/ Stage.width stage - BALL_RADIUS < p in
  in_band (x (position (ball state1))) ->
  in_band (x (position (ball state2))) ->
  x (direction (ball state1)) = - x (direction (ball state))
  /\ x (direction (ball state2)) = x (direction (ball state)).
Proof.
  cbv zeta. intros Hband1 Hband2.
  assert (Hflip : forall state input,
    (x (position (ball (reducer stage state input))) < BALL_RADIUS
     \/ Stage.width stage - BALL_RADIUS < x (position (ball (reducer stage state input)))) ->
    x (direction (ball (reducer stage state input))) = - x (direction (ball state))).
  { intros state0 input0 Hband. rewrite reducer_direction_x.
    destruct Hband as [Hband | Hband].
    - apply lt_true in Hband. by rewrite Hband.
    - apply gt_true in Hband. by rewrite Hband, orb_true_r. }
  split; [by apply Hflip|].
  rewrite (Hflip _ _ Hband2), (Hflip _ _ Hband1). apply Qcopp_involutive.
Qed.

Lemma wall_band_turns_ball_twice_witness :
  let state1 := reducer sample_stage state_at_wall (tick_zero, #240) in
  let state2 := reducer sample_stage state1 (tick_zero, #240) in
  x (position (ball state1)) < BALL_RADIUS
  /\ x (position (ball state2)) < BALL_RADIUS
  /\ x (direction (ball state2)) = x (direction (ball state_at_wall)).
Proof.
  cbv zeta.
  assert (H1 : x (position (ball (reducer sample_stage state_at_wall (tick_zero, #240))))
               < BALL_RADIUS) by (vm_compute; reflexivity).
  assert (H2 : x (position (ball (reducer sample_stage
                 (reducer sample_stage state_at_wall (tick_zero, #240))
                 (tick_zero, #240)))) < BALL_RADIUS) by (vm_compute; reflexivity).
  split; [exact H1|]. split; [exact H2|].
  exact (proj2 (wall_band_turns_ball_twice sample_stage state_at_wall
                  (tick_zero, #240) (tick_zero, #240) (or_introl H1) (or_introl H2))).
Defined.

(** X19: the paddle only matters for the vertical bounce: the position
    of the ball, the x component of its direction, the bricks and the
    score after a tick are the same whatever the paddle position. *)
Theorem paddle_only_affects_vertical_bounce stage state ticker paddle paddle' :
  let after := reducer stage state (ticker, paddle) in
  let after' := reducer stage state (ticker, paddle') in
  position (ball after) = position (ball after')
  /\ x (direction (ball after)) = x (direction (ball after'))
  /\ bricks after = bricks after'
  /\ score after = score after'.
Proof.
  cbv zeta. rewrite !reducer_eq, !reducer_collision_eq. cbn [fst].
  by repeat split.
Qed.

(** ** Stages too narrow for bricks *)

Lemma isCollision_thin ball brick : Brick.width brick <= 0 -> isCollision ball brick = false.
Proof.
  intros Hthin. unfold isCollision.
  destruct (gt _ _) eqn:H1; [|done]. destruct (lt _ _) eqn:H2; [|done]. exfalso.
  apply gt_true in H1. apply lt_true in H2. revert Hthin H1 H2.
  generalize (x (position ball) + x (direction ball)) (Brick.x brick) (Brick.width brick).
  intros p c w ? ? ?. qc_lra.
Qed.

Lemma kept_thin ball bricks :
  Forall (fun brick => Brick.width brick <= 0) bricks ->
  kept ball bricks = bricks /\ destroyed ball bricks = [].
Proof.
  induction 1 as [|brick bricks Hthin _ [IHkept IHdestroyed]]; [done|].
  rewrite kept_cons, destroyed_cons, (isCollision_thin ball brick Hthin).
  by rewrite IHkept, IHdestroyed.
Qed.

Lemma createBricks_widths stage :
  Forall (fun brick => Brick.width brick = brick_width stage) (createBricks stage).
Proof. rewrite createBricks_indices. repeat constructor. Qed.

(** X20: on a stage no wider than 24 the bricks [createBricks] makes
    have no positive width, so [isCollision] is false for all of them:
    in a session no brick is ever removed and the score stays 0. *)
Theorem narrow_stage_keeps_all_bricks stage inputs :
  Stage.width stage <= #24 ->
  brick_width stage <= 0
  /\ bricks (session_state stage inputs) = createBricks stage
  /\ score (session_state stage inputs) = #0.
Proof.
  intros Hnarrow.
  assert (Hwidth : brick_width stage <= 0).
  { unfold brick_width, BRICK_GAP. of_nat_literals. qc_lra. }
  assert (Hthin : Forall (fun brick => Brick.width brick <= 0) (createBricks stage)).
  { eapply Forall_impl; [apply createBricks_widths|]. by intros brick ->. }
  split; [exact Hwidth|].
  induction inputs as [|input inputs [IHbricks IHscore]] using rev_ind; [done|].
  rewrite session_state_snoc, reducer_bricks, reducer_score, IHbricks, IHscore.
  destruct (kept_thin (move (ball (session_state stage inputs)) (fst input))
              (createBricks stage) Hthin) as [-> ->].
  split; [done|]. cbn [length]. change (of_nat 0) with #0.
  rewrite Z2Qc_inj_0. ring.
Qed.

Lemma narrow_stage_keeps_all_bricks_witness :
  Stage.width narrow_stage <= #24
  /\ score (session_state narrow_stage [(tick_50ms, #12); (tick_50ms, #12)]) = #0.
Proof.
  assert (Hnarrow : Stage.width narrow_stage <= #24) by (vm_compute; discriminate).
  split; [exact Hnarrow|].
  exact (proj2 (proj2 (narrow_stage_keeps_all_bricks narrow_stage _ Hnarrow))).
Defined.

(** ** Sessions are independent *)

(** X21: a restart forgets the session that ended: once a session is
    over, whatever happens after the delay of the retry is what would
    have happened from boot. *)
Theorem restart_forgets_previous_session stage events later err :
  run stage events = Terminal err ->
  run stage (events ++ DelayElapsed :: later) = run stage later.
Proof.
  intros Hend. unfold run in *. rewrite foldl_app. cbn [foldl]. by rewrite Hend.
Qed.

Lemma restart_forgets_previous_session_witness :
  run sample_stage losing_frames = Terminal "game over"
  /\ run sample_stage (losing_frames ++ DelayElapsed :: [Frame tick_50ms #240])
     = run sample_stage [Frame tick_50ms #240].
Proof.
  assert (Hend : run sample_stage losing_frames = Terminal "game over")
    by (vm_compute; reflexivity).
  split; [exact Hend|].
  exact (restart_forgets_previous_session sample_stage losing_frames _ _ Hend).
Defined.
